(** * A revision-versioned key-value store over a relational backend

    Shallow embedding of [clientv3/driver/generic.go] (the MVCC engine),
    [clientv3/driver/sqlite/sqlite.go] (the statements the engine runs) and the
    response shaping of [clientv3/kv.go].

    - [int64] values are [Z] with the wrap-around of Go's arithmetic written out.
    - The [key_value] table is the list of its rows in rowid order; a statement
      without ORDER BY is read as scanning the table in that order.
    - Every backend call of the source can return an error; a [fault] argument
      says which call of an operation (if any) fails.
    - The channel [g.changes] is the list of the records sent on it, oldest
      first.  The receiving side, the mutex of [kv] and the sweep started by
      [Start] are concurrent code and are left out. *)

From Stdlib Require Import ZArith List String Ascii Bool Lia Sorted.
Import ListNotations.
Open Scope Z_scope.

(** ** Go's [int64] *)

Module Int64.

Definition max : Z := 2 ^ 63 - 1.
Definition min : Z := - 2 ^ 63.

(** Two's-complement reduction of an integer to 64 bits. *)
Definition wrap (z : Z) : Z := (z + 2 ^ 63) mod 2 ^ 64 - 2 ^ 63.

Definition add (x y : Z) : Z := wrap (x + y).

End Int64.

(** ** Records and results *)

Definition bytes := list Byte.byte.

(** Modelled from the spec: the struct [driver.KeyValue] is declared in another
    file of the package; its fields are the ones [scan] and [mod] name, typed as
    the spec's data model has them (all integers are [int64], the payloads are byte
    strings, a nil and an empty payload are both [[]]). *)
Record KeyValue : Type := mkKeyValue {
  ID : Z;
  Key : string;
  Value : bytes;
  OldValue : bytes;
  OldRevision : Z;
  CreateRevision : Z;
  Revision : Z;
  TTL : Z;
  Version : Z;
  Del : Z
}.

Definition with_ID (n : Z) (r : KeyValue) : KeyValue :=
  mkKeyValue n (Key r) (Value r) (OldValue r) (OldRevision r) (CreateRevision r)
    (Revision r) (TTL r) (Version r) (Del r).

Definition with_Value (v : bytes) (r : KeyValue) : KeyValue :=
  mkKeyValue (ID r) (Key r) v (OldValue r) (OldRevision r) (CreateRevision r)
    (Revision r) (TTL r) (Version r) (Del r).

Definition with_Revision (n : Z) (r : KeyValue) : KeyValue :=
  mkKeyValue (ID r) (Key r) (Value r) (OldValue r) (OldRevision r) (CreateRevision r)
    n (TTL r) (Version r) (Del r).

Definition with_Del (n : Z) (r : KeyValue) : KeyValue :=
  mkKeyValue (ID r) (Key r) (Value r) (OldValue r) (OldRevision r) (CreateRevision r)
    (Revision r) (TTL r) (Version r) n.

(** Modelled from the spec: [ErrNotExists] and [ErrRevisionMatch] are declared
    in another file of the package (the spec's NotExists and RevisionMismatch);
    [ErrBackend] stands for any error a database call returns. *)
Inductive error : Type :=
| ErrNotExists
| ErrRevisionMatch
| ErrBackend.

(** What a call of the engine comes back with: a value, a returned error, or a
    panic that unwinds the caller. *)
Inductive result (A : Type) : Type :=
| Ok (a : A)
| Err (e : error)
| Panic (msg : string).

Arguments Ok {A} a.
Arguments Err {A} e.
Arguments Panic {A} msg.

(** Which database call of one operation fails: none, the query ([QueryContext],
    [QueryRowContext] or the scan of its rows) or the insert ([ExecContext]). *)
Inductive fault : Type :=
| NoFault
| QueryFault
| ExecFault.

Definition query_fails (f : fault) : bool :=
  match f with QueryFault => true | _ => false end.

Definition exec_fails (f : fault) : bool :=
  match f with ExecFault => true | _ => false end.

(** ** The SQLite statements of [sqlite.go] *)

Module sqlite.

Definition table := list KeyValue.

Definition lower (c : ascii) : ascii :=
  let n := nat_of_ascii c in
  if ((65 <=? n) && (n <=? 90))%nat then ascii_of_nat (n + 32) else c.

(** [like_any f s]: [f] holds of some suffix of [s] (what [%] may leave). *)
Fixpoint like_any (f : string -> bool) (s : string) : bool :=
  f s || match s with
         | EmptyString => false
         | String _ s' => like_any f s'
         end.

(** SQLite's [name LIKE pat] on ASCII text: [%] stands for any run of
    characters, [_] for exactly one, letters compare without case; there is
    no escape character. *)
Fixpoint like (pat s : string) : bool :=
  match pat with
  | EmptyString => match s with EmptyString => true | String _ _ => false end
  | String c pat' =>
      if Ascii.eqb c "%" then like_any (like pat') s
      else match s with
           | EmptyString => false
           | String d s' =>
               (Ascii.eqb c "_" || Ascii.eqb (lower c) (lower d)) && like pat' s'
           end
  end.

(** [LIMIT n]: at most [n] rows; a negative [n] is no bound. *)
Definition limit_rows (n : Z) (l : table) : table :=
  if n <? 0 then l else firstn (Z.to_nat n) l.

(** The join of [baseList]: [kv] carries the [MAX(revision)] of the rows that
    share its name. *)
Definition max_of_name (t : table) (kv : KeyValue) : bool :=
  forallb (fun r => negb (String.eqb (Key r) (Key kv)) || (Revision r <=? Revision kv)) t.

(** [baseList], which is [ListSQL]: run with a pattern and a limit. *)
Definition baseList (t : table) (pat : string) (limit : Z) : table :=
  limit_rows limit (filter (fun kv => max_of_name t kv && like pat (Key kv)) t).


(** [GetRevisionSQL]: [MAX(revision)], NULL on an empty table. *)
Definition GetRevisionSQL (t : table) : option Z :=
  match t with
  | [] => None
  | r :: t' => Some (fold_left Z.max (map Revision t') (Revision r))
  end.

(** The [id] an insert assigns ([primary key autoincrement]). *)
Definition next_id (t : table) : Z := 1 + fold_right Z.max 0 (map ID t).

(** [InsertSQL]: appends one row made of the nine fields passed. *)
Definition InsertSQL (t : table) (r : KeyValue) : table :=
  t ++ [with_ID (next_id t) r].

End sqlite.

(** ** The messages and the response shaping of [kv.go] *)

(** Modelled from the spec: the message [mvccpb.KeyValue] is declared in
    another package; these are the fields [toKeyValue] sets. *)
Module mvccpb.

Record KeyValue : Type := mkKeyValue {
  Key : bytes;
  CreateRevision : Z;
  ModRevision : Z;
  Version : Z;
  Value : bytes;
  Lease : Z
}.

End mvccpb.

(** Modelled from the spec: the messages of [etcdserverpb] are declared in
    another package; these are the fields [kv.go] sets, a response header
    being its revision. *)
Module pb.

Record RangeResponse : Type := mkRangeResponse {
  Header : Z;
  Kvs : list mvccpb.KeyValue;
  More : bool;
  Count : Z
}.

Record PutResponse : Type := mkPutResponse {
  PutHeader : Z;
  PrevKv : option mvccpb.KeyValue
}.

Record DeleteRangeResponse : Type := mkDeleteRangeResponse {
  DeleteHeader : Z;
  PrevKvs : list mvccpb.KeyValue
}.

End pb.

Definition toKeyValue (v : KeyValue) : mvccpb.KeyValue :=
  mvccpb.mkKeyValue (list_byte_of_string (Key v)) (CreateRevision v) (Revision v)
    (Version v) (Value v) (TTL v).

(** One turn of the loop of [getResponse]: the header keeps the larger of its
    revision and the record's. *)
Definition header_step (hdr : Z) (v : KeyValue) : Z :=
  let kv := toKeyValue v in
  if hdr <? mvccpb.ModRevision kv then mvccpb.ModRevision kv else hdr.

(** The header revision after the loop of [getResponse] over [values]. *)
Definition header_revision (values : list KeyValue) : Z :=
  fold_left header_step values 0.

Definition getResponse (values : list KeyValue) (limit : Z) (count : bool)
  : pb.RangeResponse :=
  let kvs := map toKeyValue values in
  let n := Z.of_nat (List.length kvs) in
  let truncated := (0 <? limit) && (limit <? n) in
  let kvs := if truncated then firstn (Z.to_nat limit) kvs else kvs in
  pb.mkRangeResponse (header_revision values) (if count then [] else kvs) truncated n.

Definition getDeleteResponse (values : list KeyValue) : pb.DeleteRangeResponse :=
  let gr := getResponse values 0 false in
  pb.mkDeleteRangeResponse (pb.Header gr) (pb.Kvs gr).

Definition getPutResponse (oldValue : option KeyValue) (value : KeyValue)
  : pb.PutResponse :=
  pb.mkPutResponse (Revision value) (option_map toKeyValue oldValue).

(** ** The engine of [generic.go] *)

(** The struct [Generic]: the table behind [g.db], the revision counter and the
    records sent on [g.changes].  The statements are the ones [NewSQLite] sets. *)
Record Generic : Type := mkGeneric {
  db : sqlite.table;
  revision : Z;
  changes : list KeyValue
}.

(** [strings.HasSuffix]. *)
Definition HasSuffix (s suffix : string) : bool :=
  let n := String.length s in
  let m := String.length suffix in
  (m <=? n)%nat && String.eqb (substring (n - m) m s) suffix.

(** The limit [List] hands to the backend. *)
Definition backend_limit (limit : Z) : Z :=
  if limit =? 0 then 1000000 else Int64.add limit 1.

(** A mutation as a caller issues it: [Put] or [Delete] of [kv.go], with the
    fields of the operation that reach the engine. *)
Inductive op : Type :=
| OpPut (key : string) (val : bytes) (rev ttl : Z)
| OpDelete (key : string) (rev : Z).

Section Engine.

(** [NewSQLite] leaves [ListResumeSQL] unset, and builds [ListRevisionSQL] by
    replacing a marker that [baseList] does not contain, so that the statement
    has fewer placeholders than [List] passes arguments.  What the database
    returns for the two is not fixed by the engine: the rows they
    produce are parameters. *)
Variable ListRevisionSQL : sqlite.table -> Z -> string -> Z -> sqlite.table.
Variable ListResumeSQL : sqlite.table -> Z -> string -> string -> Z -> sqlite.table.

(** [Start], on the database [t]. *)
Definition Start (f : fault) (t : sqlite.table) : result Generic :=
  if query_fails f then Err ErrBackend
  else
    let rev := match sqlite.GetRevisionSQL t with Some r => r | None => 0 end in
    Ok (mkGeneric t (if rev =? 0 then 1 else rev) []).

(** The rows the query of [List] scans. *)
Definition List_rows (g : Generic) (rev limit : Z) (rangeKey startKey : string)
  : sqlite.table :=
  let limit := backend_limit limit in
  if rev <=? 0 then sqlite.baseList (db g) rangeKey limit
  else if (0 <? String.length startKey)%nat
       then ListResumeSQL (db g) rev rangeKey startKey limit
       else ListRevisionSQL (db g) rev rangeKey limit.

Definition List (f : fault) (g : Generic) (rev limit : Z) (rangeKey startKey : string)
  : result (list KeyValue) :=
  if query_fails f then Err ErrBackend
  else Ok (filter (fun value => Del value =? 0) (List_rows g rev limit rangeKey startKey)).

Definition Get (f : fault) (g : Generic) (key : string) : result (option KeyValue) :=
  match List f g 0 1 key "" with
  | Ok kvs => Ok (hd_error kvs)
  | Err e => Err e
  | Panic m => Panic m
  end.


(** The row [mod] builds from the record [Get] found. *)
Definition new_row (delete : bool) (key : string) (value : bytes) (ttl : Z)
           (newRevision : Z) (oldKv : option KeyValue) : KeyValue :=
  let result :=
    match oldKv with
    | None => mkKeyValue 0 key value [] 0 newRevision newRevision ttl 1 0
    | Some old =>
        mkKeyValue 0 key value (Value old) (Revision old) (CreateRevision old)
          newRevision (TTL old) (Int64.add (Version old) 1) 0
    end in
  if delete then with_Del 1 result else result.

(** [mod]: the engine afterwards, and what the call returns. *)
Definition mod_ (f : fault) (g : Generic) (delete : bool) (key : string)
           (value : bytes) (rev ttl : Z) : Generic * result KeyValue :=
  match Get f g key with
  | Err e => (g, Err e)
  | Panic m => (g, Panic m)
  | Ok oldKv =>
      if (0 <? rev) && match oldKv with None => true | Some _ => false end
      then (g, Err ErrNotExists)
      else if (0 <? rev)
              && match oldKv with
                 | Some old => negb (Revision old =? rev)
                 | None => false
                 end
      then (g, Err ErrRevisionMatch)
      else
        let newRevision := Int64.add (revision g) 1 in
        let result := new_row delete key value ttl newRevision oldKv in
        if exec_fails f
        then (mkGeneric (db g) newRevision (changes g), Err ErrBackend)
        else (mkGeneric (sqlite.InsertSQL (db g) result) newRevision
                (changes g ++ [result]),
              Ok result)
  end.

Definition Delete (f : fault) (g : Generic) (key : string) (rev : Z)
  : Generic * result (list KeyValue) :=
  if HasSuffix key "%"
  then (g, Panic "can not delete list revision")
  else
    match mod_ f g true key [] rev 0 with
    | (g', Ok _) => (g', Ok [])
    | (g', Err e) => (g', Err e)
    | (g', Panic m) => (g', Panic m)
    end.

Definition Update (f : fault) (g : Generic) (key : string) (value : bytes)
           (rev ttl : Z) : Generic * result (option KeyValue * KeyValue) :=
  match mod_ f g false key value rev ttl with
  | (g', Err e) => (g', Err e)
  | (g', Panic m) => (g', Panic m)
  | (g', Ok kv) =>
      if Version kv =? 1 then (g', Ok (None, kv))
      else
        let oldKv := with_Value (OldValue kv) (with_Revision (OldRevision kv) kv) in
        (g', Ok (Some oldKv, kv))
  end.

(** *** The operations of [kv.go] *)


Definition opPut (f : fault) (g : Generic) (key : string) (val : bytes)
           (rev leaseID : Z) : Generic * result pb.PutResponse :=
  match Update f g key val rev leaseID with
  | (g', Ok (oldR, r)) => (g', Ok (getPutResponse oldR r))
  | (g', Err e) => (g', Err e)
  | (g', Panic m) => (g', Panic m)
  end.

Definition opDelete (f : fault) (g : Generic) (key : string) (rev : Z)
  : Generic * result pb.DeleteRangeResponse :=
  match Delete f g key rev with
  | (g', Ok r) => (g', Ok (getDeleteResponse r))
  | (g', Err e) => (g', Err e)
  | (g', Panic m) => (g', Panic m)
  end.

(** *** Runs of mutations *)

(** One mutation: the engine afterwards, and whether the call returned
    normally, returned an error or panicked. *)
Definition step (f : fault) (g : Generic) (o : op) : Generic * result unit :=
  match o with
  | OpPut key val rev ttl =>
      match Update f g key val rev ttl with
      | (g', Ok _) => (g', Ok tt)
      | (g', Err e) => (g', Err e)
      | (g', Panic m) => (g', Panic m)
      end
  | OpDelete key rev =>
      match Delete f g key rev with
      | (g', Ok _) => (g', Ok tt)
      | (g', Err e) => (g', Err e)
      | (g', Panic m) => (g', Panic m)
      end
  end.

(** A sequence of mutations, each with the fault it meets; a panic ends it. *)
Fixpoint run (g : Generic) (ops : list (fault * op)) : Generic :=
  match ops with
  | [] => g
  | (f, o) :: ops' =>
      match step f g o with
      | (_, Panic _) => g
      | (g', _) => run g' ops'
      end
  end.

End Engine.

(** ** The current record of a key, as the data model defines it *)

(** The row of [key] with the largest revision (the later row on a tie). *)
Fixpoint spec_latest (t : sqlite.table) (key : string) : option KeyValue :=
  match t with
  | [] => None
  | r :: t' =>
      match spec_latest t' key with
      | Some r' => if String.eqb (Key r) key && (Revision r' <? Revision r)
                   then Some r else Some r'
      | None => if String.eqb (Key r) key then Some r else None
      end
  end.

(** The current record: the latest row, unless it is a tombstone. *)
Definition spec_current (t : sqlite.table) (key : string) : option KeyValue :=
  match spec_latest t key with
  | Some r => if Del r =? 0 then Some r else None
  | None => None
  end.


(** ** States the engine builds *)

(** Revisions are not shared between rows and none is ahead of the counter;
    versions count from 1 and stay below the row's revision. *)
Record wf (g : Generic) : Prop := mk_wf {
  wf_nodup : NoDup (map Revision (db g));
  wf_bound : Forall (fun r => 1 <= Version r /\ Version r < Revision r /\ Revision r <= revision g)
             (db g);
  wf_counter : 1 <= revision g <= Int64.max
}.

(** The engine [Start] returns on an empty database. *)
Definition empty_store : Generic := mkGeneric [] 1 [].

(** Stand-ins for the two statements that [NewSQLite] leaves unusable, for
    evaluating the engine on concrete calls: they produce no row. *)
Definition no_rows_revision (t : sqlite.table) (rev : Z) (pat : string) (limit : Z)
  : sqlite.table := [].

Definition no_rows_resume (t : sqlite.table) (rev : Z) (pat start : string) (limit : Z)
  : sqlite.table := [].

Abbreviation nr := no_rows_revision.
Abbreviation ns := no_rows_resume.

(** The arguments a mutation passes to [mod], and the guard of [Delete]. *)
Definition op_key (o : op) : string :=
  match o with OpPut key _ _ _ => key | OpDelete key _ => key end.

Definition op_rev (o : op) : Z :=
  match o with OpPut _ _ rev _ => rev | OpDelete _ rev => rev end.

Definition op_val (o : op) : bytes :=
  match o with OpPut _ val _ _ => val | OpDelete _ _ => [] end.

Definition op_ttl (o : op) : Z :=
  match o with OpPut _ _ _ ttl => ttl | OpDelete _ _ => 0 end.

Definition op_delete (o : op) : bool :=
  match o with OpPut _ _ _ _ => false | OpDelete _ _ => true end.

Definition guarded (o : op) : bool :=
  match o with OpPut _ _ _ _ => false | OpDelete key _ => HasSuffix key "%" end.

(** What [mod] leaves and returns when it accepts a mutation, [oldKv] being the
    record its lookup found. *)
Definition accepted (g : Generic) (delete : bool) (key : string) (value : bytes)
           (ttl : Z) (oldKv : option KeyValue) : Generic * KeyValue :=
  let newRevision := Int64.add (revision g) 1 in
  let result := new_row delete key value ttl newRevision oldKv in
  (mkGeneric (sqlite.InsertSQL (db g) result) newRevision (changes g ++ [result]),
   result).

(** What a run from the empty store keeps true of the feed and the table. *)
Record feed_inv (g : Generic) : Prop := mk_feed_inv {
  feed_rows : map Revision (db g) = map Revision (changes g);
  feed_sorted : StronglySorted Z.lt (map Revision (changes g));
  feed_bound : Forall (fun r => 2 <= Revision r /\ Revision r <= revision g) (changes g)
}.

(** ** Stores for concrete calls *)

(** The payloads [1], [2] and [3]. *)
Definition b1 : bytes := [Byte.x31].
Definition b2 : bytes := [Byte.x32].
Definition b3 : bytes := [Byte.x33].

Definition sample_run (ops : list op) : Generic :=
  run no_rows_revision no_rows_resume empty_store (map (fun o => (NoFault, o)) ops).

Definition store_a : Generic := sample_run [OpPut "a" b1 0 0].
Definition store_a2 : Generic := sample_run [OpPut "a" b1 0 0; OpPut "a" b2 2 0].
Definition store_deleted : Generic :=
  sample_run [OpPut "a" b1 0 0; OpPut "a" b2 2 0; OpDelete "a" 0].
Definition store_gap : Generic :=
  sample_run [OpPut "a" b1 0 0; OpDelete "a" 0; OpPut "b" b2 0 0; OpPut "c" b3 0 0].

(** A record as [mod] publishes it: the row without the id of the table. *)
Definition published (r : KeyValue) : KeyValue := with_ID 0 r.




(** A store on which an insert has failed: the counter is at 3, the table ends
    at revision 2. *)
Definition store_skipped : Generic :=
  run no_rows_revision no_rows_resume empty_store
    [(NoFault, OpPut "a" b1 0 0); (ExecFault, OpPut "a" b2 0 0)].


(** A store with two keys that differ by case only: [a], written and deleted,
    then [A]. *)
Definition store_case : Generic :=
  sample_run [OpPut "a" b1 0 0; OpDelete "a" 0; OpPut "A" b2 0 0].

(** * Properties *)

(** ** Arithmetic of [int64] *)

Lemma wrap_in_range (z : Z) : Int64.min <= z <= Int64.max -> Int64.wrap z = z.
Proof.
  unfold Int64.wrap, Int64.min, Int64.max. intros H.
  rewrite Z.mod_small; lia.
Qed.

Lemma add_1 (z : Z) : Int64.min <= z < Int64.max -> Int64.add z 1 = z + 1.
Proof.
  intros H. unfold Int64.add. apply wrap_in_range. lia.
Qed.

Lemma backend_limit_pos (limit : Z) :
  0 < limit < Int64.max -> backend_limit limit = limit + 1.
Proof.
  intros H. unfold backend_limit.
  destruct (Z.eqb_spec limit 0); [lia|].
  apply add_1. unfold Int64.min. lia.
Qed.

(** ** LIKE *)





(** ** Rows with distinct revisions *)


Lemma In_firstn {A} (n : nat) (l : list A) (x : A) : In x (firstn n l) -> In x l.
Proof.
  intros H. rewrite <- (firstn_skipn n l). apply in_or_app. now left.
Qed.



(** ** The latest row *)





Lemma baseList_In (t : sqlite.table) (pat : string) (n : Z) (r : KeyValue) :
  In r (sqlite.baseList t pat n) ->
  In r t /\ sqlite.max_of_name t r = true /\ sqlite.like pat (Key r) = true.
Proof.
  unfold sqlite.baseList, sqlite.limit_rows. intros H.
  assert (H' : In r (filter (fun kv => sqlite.max_of_name t kv && sqlite.like pat (Key kv)) t)).
  { destruct (n <? 0); [exact H|]. eapply In_firstn; eauto. }
  apply filter_In in H'. destruct H' as [Hin Hp].
  apply andb_true_iff in Hp. tauto.
Qed.

Lemma new_row_Revision delete key value ttl n oldKv :
  Revision (new_row delete key value ttl n oldKv) = n.
Proof. destruct delete, oldKv; reflexivity. Qed.

Lemma new_row_Key delete key value ttl n oldKv :
  Key (new_row delete key value ttl n oldKv) = key.
Proof. destruct delete, oldKv; reflexivity. Qed.


Lemma new_row_Version delete key value ttl n oldKv :
  Version (new_row delete key value ttl n oldKv) =
  match oldKv with Some old => Int64.add (Version old) 1 | None => 1 end.
Proof. destruct delete, oldKv; reflexivity. Qed.

Lemma StronglySorted_snoc (l : list Z) (x : Z) :
  StronglySorted Z.lt l -> Forall (fun y => y < x) l -> StronglySorted Z.lt (l ++ [x]).
Proof.
  induction 1 as [|a l Hs IH Ha]; simpl; intros Hall.
  - repeat constructor.
  - inversion Hall; subst. constructor; auto.
    apply Forall_app. split; auto.
Qed.

Lemma empty_store_wf : wf empty_store.
Proof.
  constructor; simpl; try constructor; unfold Int64.max; lia.
Qed.

Lemma wf_bump (g : Generic) :
  wf g -> revision g < Int64.max ->
  wf (mkGeneric (db g) (Int64.add (revision g) 1) (changes g)).
Proof.
  intros [Hnd Hb Hc] Hlt.
  rewrite add_1 by (unfold Int64.min; lia).
  constructor; simpl; auto; [|lia].
  eapply Forall_impl; [|exact Hb]. simpl. intros; lia.
Qed.

Lemma accepted_wf g delete key value ttl oldKv :
  wf g -> revision g < Int64.max ->
  (forall old, oldKv = Some old -> In old (db g)) ->
  wf (fst (accepted g delete key value ttl oldKv)).
Proof.
  intros [Hnd Hb Hc] Hlt Hold. unfold accepted, sqlite.InsertSQL. simpl.
  set (n := Int64.add (revision g) 1).
  assert (Hn : n = revision g + 1) by (apply add_1; unfold Int64.min; lia).
  rewrite Forall_forall in Hb.
  constructor; simpl.
  - rewrite map_app. simpl. rewrite new_row_Revision.
    apply NoDup_app; [exact Hnd|repeat constructor; simpl; tauto|].
    intros x Hx [<-|[]]. apply in_map_iff in Hx. destruct Hx as (r & Hr & Hin).
    specialize (Hb r Hin). lia.
  - apply Forall_app. split.
    + apply Forall_forall. intros r Hr. specialize (Hb r Hr). lia.
    + constructor; [|constructor]. simpl.
      rewrite new_row_Revision, new_row_Version.
      destruct oldKv as [old|]; [|lia].
      specialize (Hb old (Hold old eq_refl)).
      rewrite add_1 by (unfold Int64.min; lia). lia.
  - lia.
Qed.



(** ** Responses *)

Lemma header_fold (values : list KeyValue) (a : Z) :
  let h := fold_left header_step values a in
  a <= h
  /\ Forall (fun v => Revision v <= h) values
  /\ (h = a \/ exists v, In v values /\ Revision v = h).
Proof.
  revert a. induction values as [|x l IH]; intros a; simpl.
  - repeat split; auto; lia.
  - destruct (IH (header_step a x)) as (Hge & Hall & Hat).
    assert (Hs : a <= header_step a x /\ Revision x <= header_step a x
                 /\ (header_step a x = a \/ header_step a x = Revision x)).
    { unfold header_step. simpl. destruct (Z.ltb_spec a (Revision x)); lia. }
    split; [lia|]. split.
    + constructor; [lia|exact Hall].
    + destruct Hat as [Hh|(v & Hv & Hh)].
      * destruct Hs as (_ & _ & [Hs|Hs]).
        -- left. congruence.
        -- right. exists x. split; [now left|congruence].
      * right. exists v. split; [now right|exact Hh].
Qed.

Lemma getResponse_Count values limit count :
  pb.Count (getResponse values limit count) = Z.of_nat (List.length values).
Proof. unfold getResponse. simpl. now rewrite length_map. Qed.

Lemma getResponse_More values limit count :
  pb.More (getResponse values limit count)
  = (0 <? limit) && (limit <? Z.of_nat (List.length values)).
Proof. unfold getResponse. simpl. now rewrite length_map. Qed.

Lemma getResponse_Kvs values limit count :
  pb.Kvs (getResponse values limit count)
  = if count then []
    else if (0 <? limit) && (limit <? Z.of_nat (List.length values))
         then firstn (Z.to_nat limit) (map toKeyValue values)
         else map toKeyValue values.
Proof. unfold getResponse. simpl. now rewrite length_map. Qed.

Lemma limit_rows_length (n : Z) (l : sqlite.table) :
  0 <= n -> Z.of_nat (List.length (sqlite.limit_rows n l)) <= n.
Proof.
  intros Hn. unfold sqlite.limit_rows.
  destruct (Z.ltb_spec n 0); [lia|].
  pose proof (firstn_le_length (Z.to_nat n) l). lia.
Qed.

Lemma filter_length_le {A} (p : A -> bool) (l : list A) :
  (List.length (filter p l) <= List.length l)%nat.
Proof.
  induction l as [|x l IH]; simpl; [lia|]. destruct (p x); simpl; lia.
Qed.

Lemma spec_latest_snoc (t : sqlite.table) (key : string) (x : KeyValue) :
  Key x = key -> Forall (fun r => Revision r < Revision x) t ->
  spec_latest (t ++ [x]) key = Some x.
Proof.
  intros Hk. induction t as [|y t IH]; simpl; intros Hall.
  - rewrite Hk, String.eqb_refl. reflexivity.
  - inversion Hall; subst. rewrite IH by assumption.
    assert (Hlt : (Revision x <? Revision y) = false) by (apply Z.ltb_ge; lia).
    rewrite Hlt, andb_false_r. reflexivity.
Qed.

(** ** The engine, whatever the snapshot statements return *)

Section Properties.

Variable LR : sqlite.table -> Z -> string -> Z -> sqlite.table.
Variable LS : sqlite.table -> Z -> string -> string -> Z -> sqlite.table.

(** *** The lookup of the mutation path *)

Lemma Get_rows (f : fault) (g : Generic) (key : string) :
  query_fails f = false ->
  Get LR LS f g key =
  Ok (hd_error (filter (fun value => Del value =? 0) (sqlite.baseList (db g) key 2))).
Proof.
  intros Hq. unfold Get, List, List_rows. rewrite Hq. reflexivity.
Qed.

Lemma Get_fault (f : fault) (g : Generic) (key : string) :
  query_fails f = true -> Get LR LS f g key = Err ErrBackend.
Proof.
  intros Hq. unfold Get, List. rewrite Hq. reflexivity.
Qed.

Lemma Get_In (f : fault) (g : Generic) (key : string) (old : KeyValue) :
  Get LR LS f g key = Ok (Some old) -> In old (db g) /\ Del old = 0.
Proof.
  destruct (query_fails f) eqn:Hq.
  - rewrite Get_fault by assumption. discriminate.
  - rewrite Get_rows by assumption. intros [= H].
    destruct (filter _ _) as [|x l] eqn:Hf; [discriminate|].
    injection H as ->.
    assert (Hin : In old (old :: l)) by now left.
    rewrite <- Hf in Hin. apply filter_In in Hin. destruct Hin as [Hin Hd].
    apply baseList_In in Hin. split; [tauto|]. now apply Z.eqb_eq.
Qed.


(** *** The cases of [mod] *)





(** Every outcome of [mod]. *)
Lemma mod_cases f g delete key value rev ttl :
  let out := mod_ LR LS f g delete key value rev ttl in
  (fst out = g /\ exists e, snd out = Err e)
  \/ (exists oldKv, Get LR LS f g key = Ok oldKv
      /\ exec_fails f = true
      /\ out = (mkGeneric (db g) (Int64.add (revision g) 1) (changes g), Err ErrBackend))
  \/ (exists oldKv, Get LR LS f g key = Ok oldKv
      /\ exec_fails f = false
      /\ (rev <= 0 \/ exists old, oldKv = Some old /\ Revision old = rev)
      /\ out = (fst (accepted g delete key value ttl oldKv),
                Ok (snd (accepted g delete key value ttl oldKv)))).
Proof.
  unfold mod_. destruct (Get LR LS f g key) as [oldKv|e|m] eqn:HG; simpl.
  - destruct (Z.ltb_spec 0 rev) as [Hr|Hr]; simpl.
    + destruct oldKv as [old|]; simpl.
      * destruct (Z.eqb_spec (Revision old) rev) as [Heq|Hne]; simpl.
        -- destruct (exec_fails f) eqn:He.
           ++ right; left. exists (Some old). auto.
           ++ right; right. exists (Some old). repeat split; auto.
              right. exists old. auto.
        -- left. split; eauto.
      * left. split; eauto.
    + destruct (exec_fails f) eqn:He.
      * right; left. exists oldKv. auto.
      * right; right. exists oldKv. repeat split; auto.
  - left. split; eauto.
  - unfold Get, List in HG. destruct (query_fails f); discriminate.
Qed.

Lemma mod_wf f g delete key value rev ttl :
  wf g -> revision g < Int64.max ->
  wf (fst (mod_ LR LS f g delete key value rev ttl)).
Proof.
  intros Hwf Hlt.
  destruct (mod_cases f g delete key value rev ttl)
    as [[Hg _]|[(oldKv & _ & _ & Ho)|(oldKv & HG & _ & _ & Ho)]].
  - rewrite Hg. exact Hwf.
  - rewrite Ho. simpl. now apply wf_bump.
  - rewrite Ho. simpl. apply accepted_wf; auto.
    intros old ->. eapply Get_In; eauto.
Qed.

Lemma Update_fst f g key value rev ttl :
  fst (Update LR LS f g key value rev ttl) = fst (mod_ LR LS f g false key value rev ttl).
Proof.
  unfold Update. destruct (mod_ LR LS f g false key value rev ttl) as [g' [kv|e|m]]; simpl; auto.
  destruct (Version kv =? 1); reflexivity.
Qed.

Lemma Delete_fst f g key rev :
  fst (Delete LR LS f g key rev) =
  if HasSuffix key "%" then g else fst (mod_ LR LS f g true key [] rev 0).
Proof.
  unfold Delete. destruct (HasSuffix key "%"); [reflexivity|].
  destruct (mod_ LR LS f g true key [] rev 0) as [g' [kv|e|m]]; reflexivity.
Qed.

Lemma step_fst f g o :
  fst (step LR LS f g o) =
  match o with
  | OpPut key val rev ttl => fst (Update LR LS f g key val rev ttl)
  | OpDelete key rev => fst (Delete LR LS f g key rev)
  end.
Proof.
  destruct o; simpl.
  - destruct (Update LR LS f g key val rev ttl) as [g' [x|e|m]]; reflexivity.
  - destruct (Delete LR LS f g key rev) as [g' [x|e|m]]; reflexivity.
Qed.

(** A mutation moves the engine in one of three ways. *)
Lemma step_cases f g o :
  let g' := fst (step LR LS f g o) in
  g' = g
  \/ g' = mkGeneric (db g) (Int64.add (revision g) 1) (changes g)
  \/ exists r, Revision r = Int64.add (revision g) 1
               /\ g' = mkGeneric (sqlite.InsertSQL (db g) r) (Int64.add (revision g) 1)
                         (changes g ++ [r]).
Proof.
  simpl. rewrite step_fst.
  assert (H : forall delete key value rev ttl,
             let g' := fst (mod_ LR LS f g delete key value rev ttl) in
             g' = g
             \/ g' = mkGeneric (db g) (Int64.add (revision g) 1) (changes g)
             \/ exists r, Revision r = Int64.add (revision g) 1
                          /\ g' = mkGeneric (sqlite.InsertSQL (db g) r)
                                    (Int64.add (revision g) 1) (changes g ++ [r])).
  { intros delete key value rev ttl. simpl.
    destruct (mod_cases f g delete key value rev ttl)
      as [[Hg _]|[(oldKv & _ & _ & Ho)|(oldKv & HG & _ & _ & Ho)]].
    - now left.
    - right; left. rewrite Ho. reflexivity.
    - right; right. rewrite Ho. unfold accepted. simpl.
      eexists. split; [|reflexivity]. apply new_row_Revision. }
  destruct o as [key val rev ttl|key rev].
  - rewrite Update_fst. apply H.
  - rewrite Delete_fst. destruct (HasSuffix key "%"); [now left|apply H].
Qed.

Lemma step_wf f g o :
  wf g -> revision g < Int64.max -> wf (fst (step LR LS f g o)).
Proof.
  intros Hwf Hlt. rewrite step_fst. destruct o as [key val rev ttl|key rev].
  - rewrite Update_fst. now apply mod_wf.
  - rewrite Delete_fst. destruct (HasSuffix key "%"); [exact Hwf|now apply mod_wf].
Qed.

Lemma step_feed_inv f g o :
  feed_inv g -> 1 <= revision g < Int64.max -> feed_inv (fst (step LR LS f g o)).
Proof.
  intros [Hrows Hs Hb] Hc.
  assert (Hn : Int64.add (revision g) 1 = revision g + 1)
    by (apply add_1; unfold Int64.min; lia).
  destruct (step_cases f g o) as [->|[->|(r & Hr & ->)]].
  - constructor; assumption.
  - constructor; simpl; auto. rewrite Hn.
    eapply Forall_impl; [|exact Hb]. simpl. intros; lia.
  - rewrite Hn in *. constructor; simpl.
    + unfold sqlite.InsertSQL. rewrite !map_app, Hrows. reflexivity.
    + rewrite map_app. simpl. apply StronglySorted_snoc; auto.
      apply Forall_map. eapply Forall_impl; [|exact Hb]. simpl. intros; lia.
    + apply Forall_app. split.
      * eapply Forall_impl; [|exact Hb]. simpl. intros; lia.
      * repeat constructor; lia.
Qed.

Lemma step_counter f g o :
  1 <= revision g < Int64.max ->
  revision g <= revision (fst (step LR LS f g o)) <= revision g + 1.
Proof.
  intros Hc.
  assert (Hn : Int64.add (revision g) 1 = revision g + 1)
    by (apply add_1; unfold Int64.min; lia).
  destruct (step_cases f g o) as [->|[->|(r & Hr & ->)]]; simpl; lia.
Qed.

Lemma run_inv (ops : list (fault * op)) (g : Generic) :
  wf g -> feed_inv g -> revision g + Z.of_nat (List.length ops) <= Int64.max ->
  let g' := run LR LS g ops in
  wf g' /\ feed_inv g' /\ revision g <= revision g' <= revision g + Z.of_nat (List.length ops).
Proof.
  revert g. induction ops as [|[f o] ops IH]; intros g Hwf Hf Hlen; simpl in *.
  - split; [assumption|split; [assumption|lia]].
  - assert (Hc : 1 <= revision g < Int64.max) by (destruct Hwf; lia).
    pose proof (step_wf f g o Hwf ltac:(lia)) as Hwf'.
    pose proof (step_feed_inv f g o Hf Hc) as Hf'.
    pose proof (step_counter f g o Hc) as Hc'.
    destruct (step LR LS f g o) as [g1 [u|e|m]] eqn:Hs; simpl in *.
    + destruct (IH g1 Hwf' Hf' ltac:(lia)) as (? & ? & ?).
      split; [assumption|split; [assumption|lia]].
    + destruct (IH g1 Hwf' Hf' ltac:(lia)) as (? & ? & ?).
      split; [assumption|split; [assumption|lia]].
    + split; [assumption|split; [assumption|lia]].
Qed.

(** Past the guard, [Update] and [Delete] are [mod] on the arguments of the
    operation. *)
Lemma step_mod (f : fault) (g : Generic) (o : op) :
  guarded o = false ->
  step LR LS f g o =
  let out := mod_ LR LS f g (op_delete o) (op_key o) (op_val o) (op_rev o) (op_ttl o) in
  (fst out, match snd out with
            | Ok _ => Ok tt
            | Err e => Err e
            | Panic m => Panic m
            end).
Proof.
  destruct o as [key val rev ttl|key rev]; simpl; intros Hg.
  - unfold Update.
    destruct (mod_ LR LS f g false key val rev ttl) as [g' [kv|e|m]]; simpl; auto.
    destruct (Version kv =? 1); reflexivity.
  - unfold Delete. rewrite Hg.
    destruct (mod_ LR LS f g true key [] rev 0) as [g' [kv|e|m]]; reflexivity.
Qed.


Lemma Get_Ok_query (f : fault) (g : Generic) (key : string) oldKv :
  Get LR LS f g key = Ok oldKv -> query_fails f = false.
Proof.
  destruct (query_fails f) eqn:Hq; [|reflexivity].
  rewrite Get_fault by assumption. discriminate.
Qed.

(** An accepted [mod], read back: the record found, the row built from it and
    the engine it leaves. *)
Lemma mod_Ok f g delete key value rev ttl g' r :
  mod_ LR LS f g delete key value rev ttl = (g', Ok r) ->
  exists oldKv,
    Get LR LS f g key = Ok oldKv
    /\ r = new_row delete key value ttl (Int64.add (revision g) 1) oldKv
    /\ g' = mkGeneric (sqlite.InsertSQL (db g) r) (Int64.add (revision g) 1)
              (changes g ++ [r]).
Proof.
  intros H.
  destruct (mod_cases f g delete key value rev ttl)
    as [[_ [e He]]|[(oldKv & _ & _ & Ho)|(oldKv & HG & _ & _ & Ho)]].
  - rewrite H in He. discriminate.
  - rewrite H in Ho. discriminate.
  - rewrite H in Ho. injection Ho as -> ->. exists oldKv. repeat split; auto.
Qed.



(** C8: what [Update] returns beside the new record: nothing exactly when the
    new record has version 1, and otherwise the new record with its value
    replaced by oldValue, its revision by oldRevision, every other field as
    it is in the new record. *)
Theorem put_prior_record (f : fault) (g g' : Generic) (key : string) (value : bytes)
        (rev ttl : Z) (prior : option KeyValue) (kv : KeyValue) :
  Update LR LS f g key value rev ttl = (g', Ok (prior, kv)) ->
  (prior = None <-> Version kv = 1)
  /\ (Version kv <> 1 ->
      exists old,
        prior = Some old
        /\ Value old = OldValue kv
        /\ Revision old = OldRevision kv
        /\ ID old = ID kv /\ Key old = Key kv /\ OldValue old = OldValue kv
        /\ OldRevision old = OldRevision kv
        /\ CreateRevision old = CreateRevision kv
        /\ TTL old = TTL kv /\ Version old = Version kv /\ Del old = Del kv).
Proof.
  unfold Update.
  destruct (mod_ LR LS f g false key value rev ttl) as [g1 [r|e|m]]; try discriminate.
  destruct (Z.eqb_spec (Version r) 1) as [Hv|Hv]; intros [= <- <- <-].
  - split; [tauto|]. intros Hne. contradiction.
  - split; [split; [discriminate|intros; contradiction]|].
    intros _. eexists. repeat split.
Qed.

Lemma List_Ok f g rev limit pat start kvs :
  List LR LS f g rev limit pat start = Ok kvs ->
  kvs = filter (fun value => Del value =? 0) (List_rows LR LS g rev limit pat start).
Proof.
  unfold List. destruct (query_fails f); [discriminate|]. now intros [= <-].
Qed.

(** After an accepted [Delete] the latest row of the key is the tombstone. *)
Lemma Delete_latest f g g' key rev prior :
  wf g -> revision g < Int64.max ->
  Delete LR LS f g key rev = (g', Ok prior) ->
  exists t, spec_latest (db g') key = Some t /\ Del t = 1 /\ Revision t = revision g'.
Proof.
  intros Hwf Hlt. unfold Delete. destruct (HasSuffix key "%"); [discriminate|].
  destruct (mod_ LR LS f g true key [] rev 0) as [g1 [r|e|m]] eqn:Hm; try discriminate.
  intros [= <- <-]. destruct (mod_Ok _ _ _ _ _ _ _ _ _ Hm) as (oldKv & _ & Hr & ->).
  simpl. unfold sqlite.InsertSQL.
  eexists. split; [apply spec_latest_snoc|].
  - simpl. rewrite Hr. apply new_row_Key.
  - simpl. rewrite Hr, new_row_Revision.
    destruct Hwf as [_ Hb Hc]. eapply Forall_impl; [|exact Hb]. simpl.
    intros a Ha. rewrite add_1 by (unfold Int64.min; lia). lia.
  - simpl. rewrite Hr, new_row_Revision. split; [|reflexivity].
    destruct oldKv; reflexivity.
Qed.


(** C10: [Count] is the number of records fetched, whatever is returned; when
    a positive limit truncates them, [Count] exceeds the number of records
    returned, and on the live view it is at most the limit plus one.  The
    revision of the header is the largest revision among the records fetched
    (revisions are not negative), and 0 when there is none. *)
Theorem count_before_truncation (values : list KeyValue) (limit : Z) (count : bool) :
  let gr := getResponse values limit count in
  pb.Count gr = Z.of_nat (List.length values)
  /\ (0 < limit < Z.of_nat (List.length values) ->
      pb.More gr = true /\ Z.of_nat (List.length (pb.Kvs gr)) < pb.Count gr)
  /\ (forall f g rev key start,
         List LR LS f g rev limit key start = Ok values ->
         rev <= 0 -> 0 < limit < Int64.max -> pb.Count gr <= limit + 1)
  /\ Forall (fun v => Revision v <= pb.Header gr) values
  /\ (values <> [] -> Forall (fun v => 0 <= Revision v) values ->
      exists v, In v values /\ Revision v = pb.Header gr)
  /\ (values = [] -> pb.Header gr = 0).
Proof.
  cbv zeta. rewrite getResponse_Count, getResponse_More, getResponse_Kvs.
  split; [reflexivity|]. split; [|split].
  - intros [H0 Hn].
    assert (Ht : (0 <? limit) && (limit <? Z.of_nat (List.length values)) = true).
    { apply andb_true_iff. split; now apply Z.ltb_lt. }
    rewrite Ht. split; [reflexivity|].
    destruct count; simpl; [lia|].
    rewrite length_firstn, length_map. lia.
  - intros f g rev key start HL Hrev Hlim. apply List_Ok in HL.
    rewrite HL. unfold List_rows.
    assert (Hle : (rev <=? 0) = true) by now apply Z.leb_le.
    rewrite Hle, backend_limit_pos by assumption.
    pose proof (filter_length_le (fun value => Del value =? 0)
                  (sqlite.baseList (db g) key (limit + 1))).
    pose proof (limit_rows_length (limit + 1)
                  (filter (fun kv => sqlite.max_of_name (db g) kv
                                     && sqlite.like key (Key kv)) (db g))
                  ltac:(lia)).
    unfold sqlite.baseList in *. lia.
  - destruct (header_fold values 0) as (_ & Hall & Hat).
    split; [exact Hall|]. split; [|intros ->; reflexivity].
    intros Hne Hpos. destruct Hat as [H0|Hat]; [|exact Hat].
    destruct values as [|v l]; [contradiction|].
    exists v. split; [now left|].
    inversion Hall; subst. inversion Hpos; subst.
    unfold getResponse, header_revision in *. simpl in *. lia.
Qed.


(** On a key that ends in the wildcard marker [Delete] panics, whatever the
    engine holds, and leaves it as it was. *)
Lemma Delete_wildcard_panics (f : fault) (g : Generic) (key : string) (rev : Z) :
  HasSuffix key "%" = true ->
  Delete LR LS f g key rev = (g, Panic "can not delete list revision").
Proof.
  intros H. unfold Delete. rewrite H. reflexivity.
Qed.

(** C7, on the code: an accepted [Delete] hands back no record, so that the
    response built from it has no previous record either; what it does to
    the table is append one tombstone row for the key, every row stored
    before staying in place. *)
Theorem delete_returns_nothing (f : fault) (g g' : Generic) (key : string)
        (rev : Z) (prior : list KeyValue) :
  Delete LR LS f g key rev = (g', Ok prior) ->
  prior = []
  /\ pb.PrevKvs (getDeleteResponse prior) = []
  /\ exists t, db g' = db g ++ [t] /\ Key t = key /\ Del t = 1.
Proof.
  unfold Delete. destruct (HasSuffix key "%"); [discriminate|].
  destruct (mod_ LR LS f g true key [] rev 0) as [g1 [r|e|m]] eqn:Hm; try discriminate.
  intros [= <- <-]. destruct (mod_Ok _ _ _ _ _ _ _ _ _ Hm) as (oldKv & _ & Hr & ->).
  split; [reflexivity|]. split; [reflexivity|].
  simpl. unfold sqlite.InsertSQL. eexists. split; [reflexivity|].
  rewrite Hr. destruct oldKv; simpl; auto.
Qed.

Lemma run_empty_store (ops : list (fault * op)) :
  1 + Z.of_nat (List.length ops) <= Int64.max ->
  wf (run LR LS empty_store ops) /\ feed_inv (run LR LS empty_store ops).
Proof.
  intros Hlen.
  assert (Hf : feed_inv empty_store) by (constructor; simpl; constructor).
  destruct (run_inv ops empty_store empty_store_wf Hf Hlen) as (? & ? & _).
  split; assumption.
Qed.

Lemma step_Err (f : fault) (g g' : Generic) (o : op) (e : error) :
  step LR LS f g o = (g', Err e) -> e <> ErrBackend -> g' = g.
Proof.
  destruct (guarded o) eqn:Hg.
  - destruct o as [key val rev ttl|key rev]; simpl in Hg; [discriminate|].
    simpl. unfold Delete. rewrite Hg. discriminate.
  - rewrite step_mod by assumption. cbv zeta.
    destruct (mod_cases f g (op_delete o) (op_key o) (op_val o) (op_rev o) (op_ttl o))
      as [[Hfst _]|[(oldKv & _ & _ & Ho)|(oldKv & _ & _ & _ & Ho)]].
    + intros [= <- _] _. exact Hfst.
    + rewrite Ho. simpl. intros [= _ <-] Hne. contradiction.
    + rewrite Ho. simpl. discriminate.
Qed.

(** C2, as amended: [Start] on an empty database sets the counter to 1, and a
    mutation is given the counter after it is incremented.  So a [Put]
    accepted on the empty store returns no prior record and a record of
    revision 2, version 1 and createRevision 2; along any run from the empty
    store (short of the overflow of the counter) the records accepted carry
    strictly increasing revisions, which are those of the rows of the table
    and lie between 2 and the counter; and a mutation that fails with
    [ErrNotExists] or [ErrRevisionMatch] leaves the counter, the table and
    the feed as they were, and returns no record. *)
Theorem revisions_from_empty_store :
  Start NoFault [] = Ok empty_store
  /\ (forall f key value rev ttl g1 prior kv,
         Update LR LS f empty_store key value rev ttl = (g1, Ok (prior, kv)) ->
         prior = None /\ Revision kv = 2 /\ Version kv = 1 /\ CreateRevision kv = 2)
  /\ (forall ops,
         1 + Z.of_nat (List.length ops) <= Int64.max ->
         let g := run LR LS empty_store ops in
         StronglySorted Z.lt (map Revision (changes g))
         /\ map Revision (db g) = map Revision (changes g)
         /\ Forall (fun r => 2 <= Revision r /\ Revision r <= revision g) (changes g))
  /\ (forall f g o g' e,
         step LR LS f g o = (g', Err e) -> e <> ErrBackend -> g' = g).
Proof.
  split; [reflexivity|]. split; [|split].
  - intros f key value rev ttl g1 prior kv H. unfold Update in H.
    destruct (mod_ LR LS f empty_store false key value rev ttl) as [g' [r|e|m]] eqn:Hm;
      try discriminate.
    destruct (mod_Ok _ _ _ _ _ _ _ _ _ Hm) as (oldKv & HG & Hr & _).
    rewrite Get_rows in HG by (eapply Get_Ok_query; eauto).
    injection HG as <-. simpl in Hr. subst r. simpl in H.
    injection H as _ <- <-. repeat split.
  - intros ops Hlen. destruct (run_empty_store ops Hlen) as [_ [Hrows Hs Hb]].
    cbv zeta. repeat split; assumption.
  - intros f g o g' e. apply step_Err.
Qed.

End Properties.

(** C6, on the code: on the key [a%], which ends in the wildcard marker,
    [Delete] panics and leaves the engine as it was, while [Update] returns
    normally: it takes the record of [a] for the current record of [a%],
    appends a row for [a%] that continues the chain of [a], and publishes it. *)
Theorem wildcard_put_is_accepted :
  Delete no_rows_revision no_rows_resume NoFault store_a "a%" 0
  = (store_a, Panic "can not delete list revision")
  /\ Update no_rows_revision no_rows_resume NoFault store_a "a%" b3 0 0
     = (mkGeneric
          [mkKeyValue 1 "a" b1 [] 0 2 2 0 1 0; mkKeyValue 2 "a%" b3 b1 2 2 3 0 2 0]
          3
          [mkKeyValue 0 "a" b1 [] 0 2 2 0 1 0; mkKeyValue 0 "a%" b3 b1 2 2 3 0 2 0],
        Ok (Some (mkKeyValue 0 "a%" b1 b1 2 2 2 0 2 0),
            mkKeyValue 0 "a%" b3 b1 2 2 3 0 2 0)).
Proof. split; reflexivity. Qed.

(** ** Concrete calls *)

(** The sample stores are runs from the empty store, hence well formed. *)
Lemma sample_run_wf (ops : list op) :
  1 + Z.of_nat (List.length ops) <= Int64.max -> wf (sample_run ops).
Proof.
  intros H. apply run_empty_store. now rewrite length_map.
Qed.


(** C2, against the claim as stated: the [Put] accepted first on the empty
    store returns a record of revision 2 and createRevision 2, not 1. *)
Lemma first_put_has_revision_two :
  Start NoFault [] = Ok empty_store
  /\ Update nr ns NoFault empty_store "a" b1 0 0
     = (store_a, Ok (None, mkKeyValue 0 "a" b1 [] 0 2 2 0 1 0))
  /\ Revision (mkKeyValue 0 "a" b1 [] 0 2 2 0 1 0) <> 1
  /\ CreateRevision (mkKeyValue 0 "a" b1 [] 0 2 2 0 1 0) <> 1.
Proof. repeat split; discriminate. Qed.

(** Four mutations from the empty store are given the revisions 2 to 5. *)
Lemma revisions_from_empty_store_witness :
  map Revision (changes store_gap) = [2; 3; 4; 5]
  /\ StronglySorted Z.lt (map Revision (changes store_gap))
  /\ map Revision (db store_gap) = map Revision (changes store_gap).
Proof.
  split; [reflexivity|].
  destruct (revisions_from_empty_store nr ns) as (_ & _ & H & _).
  specialize (H (map (fun o => (NoFault, o))
                   [OpPut "a" b1 0 0; OpDelete "a" 0; OpPut "b" b2 0 0; OpPut "c" b3 0 0])).
  destruct H as (Hs & Hrows & _); [vm_compute; discriminate|].
  split; assumption.
Defined.





(** [Delete] of [a], held at version 2. *)
Lemma delete_returns_nothing_witness :
  Delete nr ns NoFault store_a2 "a" 0 = (store_deleted, Ok [])
  /\ pb.PrevKvs (getDeleteResponse []) = []
  /\ exists t, db store_deleted = db store_a2 ++ [t] /\ Key t = "a"%string /\ Del t = 1.
Proof.
  split; [reflexivity|].
  destruct (delete_returns_nothing nr ns NoFault store_a2 store_deleted "a" 0 [] eq_refl)
    as (_ & H).
  exact H.
Defined.

(** The second [Put] on [a]: the prior record is the new one with the value
    [1] and the revision 2 put back. *)
Lemma put_prior_record_witness :
  exists old,
    Some (mkKeyValue 0 "a" b1 b1 2 2 2 0 2 0) = Some old
    /\ Value old = b1 /\ Revision old = 2
    /\ ID old = 0 /\ Key old = "a"%string /\ OldValue old = b1 /\ OldRevision old = 2
    /\ CreateRevision old = 2 /\ TTL old = 0 /\ Version old = 2 /\ Del old = 0.
Proof.
  destruct (put_prior_record nr ns NoFault store_a store_a2 "a" b2 2 0
              (Some (mkKeyValue 0 "a" b1 b1 2 2 2 0 2 0))
              (mkKeyValue 0 "a" b2 b1 2 2 3 0 2 0) eq_refl) as (_ & H).
  apply H. discriminate.
Defined.


(** Four records under the limit 2. *)
Lemma count_before_truncation_witness :
  let gr := getResponse (db store_gap) 2 false in
  pb.Count gr = 4 /\ pb.More gr = true /\ Z.of_nat (List.length (pb.Kvs gr)) < pb.Count gr
  /\ pb.Header gr = 5.
Proof.
  cbv zeta.
  destruct (count_before_truncation nr ns (db store_gap) 2 false) as (Hc & Ht & _).
  split; [exact Hc|].
  destruct Ht as (Hm & Hlt); [vm_compute; split; reflexivity|].
  split; [exact Hm|]. split; [exact Hlt|reflexivity].
Defined.

(** * Further properties *)

(** ** The feed, the stored maximum *)

Lemma published_with_ID n r : ID r = 0 -> published (with_ID n r) = r.
Proof. destruct r; simpl; intros ->; reflexivity. Qed.

Lemma new_row_ID delete key value ttl n oldKv :
  ID (new_row delete key value ttl n oldKv) = 0.
Proof. destruct delete, oldKv; reflexivity. Qed.

Lemma fold_max_spec (l : list Z) (a : Z) :
  let m := fold_left Z.max l a in
  a <= m /\ Forall (fun x => x <= m) l /\ In m (a :: l).
Proof.
  revert a. induction l as [|x l IH]; intros a; simpl.
  - repeat split; auto; lia.
  - destruct (IH (Z.max a x)) as (Hge & Hall & Hin). split; [lia|]. split.
    + constructor; [lia|exact Hall].
    + destruct Hin as [Hin|Hin]; [|right; right; exact Hin].
      destruct (Z.max_spec a x) as [[_ Hm]|[_ Hm]]; rewrite Hm in *.
      * right; left; exact Hin.
      * left; exact Hin.
Qed.

Lemma GetRevisionSQL_max (t : sqlite.table) :
  t <> [] ->
  exists m, sqlite.GetRevisionSQL t = Some m
            /\ In m (map Revision t)
            /\ Forall (fun r => Revision r <= m) t.
Proof.
  destruct t as [|r t]; [congruence|]. intros _. simpl.
  destruct (fold_max_spec (map Revision t) (Revision r)) as (Hge & Hall & Hin).
  eexists. split; [reflexivity|]. split; [exact Hin|].
  constructor; [exact Hge|]. rewrite Forall_map in Hall. exact Hall.
Qed.

(** ** Tables with one more row *)



(** ** Patterns and listings *)








(** ** Mutations, lookups and listings together *)

Section Behaviour.

Variable LR : sqlite.table -> Z -> string -> Z -> sqlite.table.
Variable LS : sqlite.table -> Z -> string -> string -> Z -> sqlite.table.

(** Every way a mutation can end, with the engine it leaves. *)
Lemma step_outcomes (f : fault) (g : Generic) (o : op) :
  let out := step LR LS f g o in
  (guarded o = true /\ out = (g, Panic "can not delete list revision"))
  \/ (guarded o = false
      /\ ((exists e, out = (g, Err e))
          \/ (exec_fails f = true
              /\ out = (mkGeneric (db g) (Int64.add (revision g) 1) (changes g),
                        Err ErrBackend))
          \/ (exec_fails f = false
              /\ exists oldKv,
                   Get LR LS f g (op_key o) = Ok oldKv
                   /\ out = (fst (accepted g (op_delete o) (op_key o) (op_val o)
                                    (op_ttl o) oldKv), Ok tt)))).
Proof.
  cbv zeta. destruct (guarded o) eqn:Hg.
  - left. split; [reflexivity|].
    destruct o as [key val rev ttl|key rev]; simpl in Hg; [discriminate|].
    simpl. unfold Delete. rewrite Hg. reflexivity.
  - right. split; [reflexivity|]. rewrite (step_mod LR LS) by assumption. cbv zeta.
    destruct (mod_cases LR LS f g (op_delete o) (op_key o) (op_val o) (op_rev o) (op_ttl o))
      as [[Hfst [e He]]|[(oldKv & _ & Hx & Ho)|(oldKv & HG & Hx & _ & Ho)]].
    + left. exists e. rewrite He, Hfst. reflexivity.
    + right; left. split; [exact Hx|]. rewrite Ho. reflexivity.
    + right; right. split; [exact Hx|]. exists oldKv. split; [exact HG|].
      rewrite Ho. reflexivity.
Qed.

(** X1: a mutation panics exactly when it is a [Delete] of a key that ends in
    the wildcard marker; the engine is then left as it was, and an [Update]
    never panics. *)
Theorem panic_only_from_delete_guard (f : fault) (g g' : Generic) (o : op) (res : result unit) :
  step LR LS f g o = (g', res) ->
  ((exists m, res = Panic m) <-> guarded o = true)
  /\ ((exists m, res = Panic m) -> g' = g)
  /\ (forall key val rev ttl, o = OpPut key val rev ttl -> forall m, res <> Panic m).
Proof.
  intros H. pose proof (step_outcomes f g o) as Ho. cbv zeta in Ho. rewrite H in Ho.
  destruct Ho as [[Hg Ho]|[Hg Ho]].
  - injection Ho as -> ->. repeat split; eauto.
    intros key val rev ttl ->. discriminate.
  - assert (Hn : forall m, res <> Panic m).
    { intros m ->.
      destruct Ho as [[e Ho]|[[_ Ho]|[_ (oldKv & _ & Ho)]]]; discriminate. }
    repeat split.
    + intros [m ->]. exfalso. exact (Hn m eq_refl).
    + rewrite Hg. discriminate.
    + intros [m ->]. exfalso. exact (Hn m eq_refl).
    + intros; apply Hn.
Qed.

(** X2: a mutation that does not return normally writes nothing: the table
    and the feed are as before.  The counter is as before too, unless the
    lookup succeeded, the mutation was admitted and the insert failed, in which
    case one revision is used up.  A failing lookup is reported as it is. *)
Theorem failed_mutation_writes_nothing (f : fault) (g g' : Generic) (o : op)
        (res : result unit) :
  step LR LS f g o = (g', res) -> res <> Ok tt ->
  db g' = db g
  /\ changes g' = changes g
  /\ (revision g' = revision g \/ revision g' = Int64.add (revision g) 1)
  /\ (revision g' <> revision g -> exec_fails f = true /\ res = Err ErrBackend)
  /\ (query_fails f = true -> guarded o = false -> g' = g /\ res = Err ErrBackend).
Proof.
  intros H Hne. pose proof (step_outcomes f g o) as Ho. cbv zeta in Ho. rewrite H in Ho.
  destruct Ho as [[Hg Ho]|[Hg [[e Ho]|[[Hx Ho]|[_ (oldKv & _ & Ho)]]]]].
  - injection Ho as -> ->.
    split; [reflexivity|]. split; [reflexivity|]. split; [now left|].
    split; [intros Hc; contradiction|]. intros _ Hg'. congruence.
  - injection Ho as -> ->.
    split; [reflexivity|]. split; [reflexivity|]. split; [now left|].
    split; [intros Hc; contradiction|]. intros Hq _. split; [reflexivity|].
    rewrite (step_mod LR LS) in H by assumption. cbv zeta in H.
    unfold mod_ in H. rewrite (Get_fault LR LS) in H by assumption.
    simpl in H. congruence.
  - injection Ho as -> ->. simpl.
    split; [reflexivity|]. split; [reflexivity|]. split; [now right|].
    split; [intros _; split; [exact Hx|reflexivity]|].
    intros Hq. destruct f; discriminate.
  - injection Ho as _ ->. contradiction.
Qed.

(** What one mutation adds to the table: nothing, or the row it publishes. *)
Lemma step_appends (f : fault) (g : Generic) (o : op) :
  exists rows,
    db (fst (step LR LS f g o)) = db g ++ rows
    /\ changes (fst (step LR LS f g o)) = changes g ++ map published rows
    /\ (List.length rows <= 1)%nat.
Proof.
  pose proof (step_outcomes f g o) as Ho. cbv zeta in Ho.
  destruct Ho as [[_ Ho]|[_ [[e Ho]|[[_ Ho]|[_ (oldKv & _ & Ho)]]]]]; rewrite Ho; simpl.
  - exists []. rewrite !app_nil_r. auto.
  - exists []. rewrite !app_nil_r. auto.
  - exists []. rewrite !app_nil_r. auto.
  - eexists [_]. split; [reflexivity|]. split; [|simpl; lia].
    simpl. rewrite published_with_ID by apply new_row_ID. reflexivity.
Qed.

(** X3: whatever the engine holds and whatever the mutations are, a run only
    appends rows to the table, at most one for each mutation, and sends each
    appended row to the feed, in the same order, as the record without the id
    of the table. *)
Theorem history_is_append_only (ops : list (fault * op)) (g : Generic) :
  exists rows,
    db (run LR LS g ops) = db g ++ rows
    /\ changes (run LR LS g ops) = changes g ++ map published rows
    /\ (List.length rows <= List.length ops)%nat.
Proof.
  revert g. induction ops as [|[f o] ops IH]; intros g; simpl.
  - exists []. rewrite !app_nil_r. auto.
  - destruct (step_appends f g o) as (r1 & Hd & Hc & Hl).
    destruct (step LR LS f g o) as [g1 [u|e|m]] eqn:Hs; simpl in *.
    + destruct (IH g1) as (r2 & Hd2 & Hc2 & Hl2). exists (r1 ++ r2).
      rewrite Hd2, Hc2, Hd, Hc, map_app, <- !app_assoc, length_app.
      repeat split; auto; lia.
    + destruct (IH g1) as (r2 & Hd2 & Hc2 & Hl2). exists (r1 ++ r2).
      rewrite Hd2, Hc2, Hd, Hc, map_app, <- !app_assoc, length_app.
      repeat split; auto; lia.
    + exists []. rewrite !app_nil_r. repeat split; auto. simpl. lia.
Qed.


(** X4: a run of mutations keeps the store well formed (no two rows share a
    revision; a version is at least 1 and below the revision of its row; no
    revision is ahead of the counter), and moves the counter forward by at
    most one for each mutation, as long as the counter stays within [int64]. *)
Theorem run_keeps_store_well_formed (ops : list (fault * op)) (g : Generic) :
  wf g -> revision g + Z.of_nat (List.length ops) <= Int64.max ->
  wf (run LR LS g ops)
  /\ revision g <= revision (run LR LS g ops) <= revision g + Z.of_nat (List.length ops).
Proof.
  revert g. induction ops as [|[f o] ops IH]; intros g Hwf Hlen; simpl in *.
  - split; [assumption|lia].
  - assert (Hc : 1 <= revision g < Int64.max) by (destruct Hwf; lia).
    pose proof (step_wf LR LS f g o Hwf ltac:(lia)) as Hwf'.
    pose proof (step_counter LR LS f g o Hc) as Hc'.
    destruct (step LR LS f g o) as [g1 [u|e|m]] eqn:Hs; simpl in *.
    + destruct (IH g1 Hwf' ltac:(lia)) as (? & ?). split; [assumption|lia].
    + destruct (IH g1 Hwf' ltac:(lia)) as (? & ?). split; [assumption|lia].
    + split; [assumption|lia].
Qed.



(** X6: [Start] on the table of a well-formed store resumes from the largest
    revision stored, which is not above the counter the store had, leaves the
    table as it is, and gives a well-formed store again.  As a mutation that
    fails leaves the table alone, the revision a failed insert used up is
    forgotten by the restart. *)
Theorem restart_resumes_from_stored_maximum (g : Generic) :
  wf g -> db g <> [] ->
  exists g',
    Start NoFault (db g) = Ok g'
    /\ db g' = db g /\ changes g' = []
    /\ In (revision g') (map Revision (db g))
    /\ Forall (fun r => Revision r <= revision g') (db g)
    /\ revision g' <= revision g
    /\ wf g'
    /\ (forall f o, snd (step LR LS f g o) <> Ok tt ->
                    Start NoFault (db (fst (step LR LS f g o))) = Ok g').
Proof.
  intros Hwf Hne. destruct (GetRevisionSQL_max (db g) Hne) as (m & Hm & Hin & Hall).
  pose proof Hwf as [Hnd Hb Hc].
  assert (Hm2 : 2 <= m <= revision g).
  { apply in_map_iff in Hin. destruct Hin as (r & <- & Hr).
    rewrite Forall_forall in Hb. specialize (Hb r Hr). lia. }
  assert (HS : Start NoFault (db g) = Ok (mkGeneric (db g) m [])).
  { unfold Start. simpl. rewrite Hm.
    destruct (Z.eqb_spec m 0); [lia|reflexivity]. }
  assert (Hwf' : wf (mkGeneric (db g) m [])).
  { constructor; simpl; [exact Hnd| |unfold Int64.max in *; lia].
    rewrite Forall_forall in *. intros r Hr.
    specialize (Hb r Hr). specialize (Hall r Hr). simpl in Hall. lia. }
  exists (mkGeneric (db g) m []). simpl.
  split; [exact HS|]. split; [reflexivity|]. split; [reflexivity|].
  split; [exact Hin|]. split; [exact Hall|]. split; [lia|]. split; [exact Hwf'|].
  intros f o Hres.
  pose proof (step_outcomes f g o) as Ho. cbv zeta in Ho.
  destruct Ho as [[_ Ho]|[_ [[e Ho]|[[_ Ho]|[_ (oldKv & _ & Ho)]]]]];
    rewrite Ho in *; simpl in *; auto. contradiction.
Qed.










End Behaviour.

(** ** Concrete calls of the further properties *)

(** A [Delete] of [a%] on the store that holds [a]. *)
Lemma panic_only_from_delete_guard_witness :
  step nr ns NoFault store_a (OpDelete "a%" 0)
  = (store_a, Panic "can not delete list revision")
  /\ guarded (OpDelete "a%" 0) = true.
Proof.
  split; [reflexivity|].
  destruct (panic_only_from_delete_guard nr ns NoFault store_a store_a (OpDelete "a%" 0)
              (Panic "can not delete list revision") eq_refl) as (H & _).
  apply H. eexists. reflexivity.
Defined.

(** A [Put] on [a] whose insert fails: the counter moves from 2 to 3 and
    nothing else changes. *)
Lemma failed_mutation_writes_nothing_witness :
  step nr ns ExecFault store_a (OpPut "a" b2 0 0)
  = (mkGeneric (db store_a) 3 (changes store_a), Err ErrBackend)
  /\ db (mkGeneric (db store_a) 3 (changes store_a)) = db store_a
  /\ changes (mkGeneric (db store_a) 3 (changes store_a)) = changes store_a.
Proof.
  split; [reflexivity|].
  destruct (failed_mutation_writes_nothing nr ns ExecFault store_a
              (mkGeneric (db store_a) 3 (changes store_a)) (OpPut "a" b2 0 0)
              (Err ErrBackend) eq_refl ltac:(discriminate)) as (Hd & Hc & _).
  split; assumption.
Defined.

(** Two further mutations on the store that holds [a]. *)
Lemma run_keeps_store_well_formed_witness :
  wf (run nr ns store_a [(NoFault, OpDelete "a" 2); (ExecFault, OpPut "b" b2 0 0)])
  /\ revision (run nr ns store_a [(NoFault, OpDelete "a" 2); (ExecFault, OpPut "b" b2 0 0)])
     <= 2 + 2.
Proof.
  assert (Hwf : wf store_a) by (apply sample_run_wf; vm_compute; discriminate).
  destruct (run_keeps_store_well_formed nr ns
              [(NoFault, OpDelete "a" 2); (ExecFault, OpPut "b" b2 0 0)] store_a Hwf
              ltac:(vm_compute; discriminate)) as (H & _ & Hle).
  split; [exact H|exact Hle].
Defined.


(** After a failed insert the counter is at 3; the restart resumes from 2. *)
Lemma restart_resumes_from_stored_maximum_witness :
  revision store_skipped = 3
  /\ exists g', Start NoFault (db store_skipped) = Ok g' /\ revision g' = 2 /\ wf g'.
Proof.
  split; [reflexivity|].
  assert (Hwf : wf store_skipped).
  { apply (run_empty_store nr ns). vm_compute. discriminate. }
  destruct (restart_resumes_from_stored_maximum nr ns store_skipped Hwf
              ltac:(discriminate)) as (g' & HS & _ & _ & _ & _ & _ & Hwf' & _).
  exists g'. split; [exact HS|]. split; [|exact Hwf'].
  vm_compute in HS. injection HS as <-. reflexivity.
Defined.







(** ** Keys that match other keys *)

(** C1, on the code: [a] has no current record (its latest row is a
    tombstone), but the lookup [name LIKE 'a'] finds the record of [A],
    at revision 4.  A [Put] on [a] that names revision 9 fails with
    [ErrRevisionMatch], not [ErrNotExists], and one that names revision 4 is
    accepted. *)
Lemma conditional_put_meets_other_key :
  spec_current (db store_case) "a" = None
  /\ step nr ns NoFault store_case (OpPut "a" b3 9 0) = (store_case, Err ErrRevisionMatch)
  /\ snd (step nr ns NoFault store_case (OpPut "a" b3 4 0)) = Ok tt.
Proof. repeat split. Qed.

(** C3, on the code: [a] has no current record, but the row of an accepted
    [Put] on [a] does not open a chain: it carries on the record of [A], with
    version 2, createRevision 4, oldRevision 4 and the value of [A] as
    oldValue. *)
Lemma accepted_row_continues_other_key :
  spec_current (db store_case) "a" = None
  /\ snd (mod_ nr ns NoFault store_case false "a" b3 0 0)
     = Ok (mkKeyValue 0 "a" b3 b2 4 4 5 0 2 0)
  /\ Version (mkKeyValue 0 "a" b3 b2 4 4 5 0 2 0) <> 1.
Proof. repeat split. discriminate. Qed.

(** C4, on the code: the latest row of [a] is a tombstone, and [Get] on [a]
    returns the record of [A]. *)
Lemma get_after_delete_finds_other_key :
  spec_latest (db store_case) "a" = Some (mkKeyValue 2 "a" [] b1 2 2 3 0 2 1)
  /\ Get nr ns NoFault store_case "a"
     = Ok (Some (mkKeyValue 3 "A" b2 [] 0 4 4 0 1 0)).
Proof. split; reflexivity. Qed.

(** C9, on the code: the latest row of [a] is a tombstone; a [Delete] of [a]
    that names revision 9 fails with [ErrRevisionMatch], not [ErrNotExists],
    and the row of an unconditional [Delete] of [a] does not start a chain
    afresh: it has version 2 and the createRevision of [A]. *)
Lemma tombstoned_key_meets_other_key :
  spec_latest (db store_case) "a" = Some (mkKeyValue 2 "a" [] b1 2 2 3 0 2 1)
  /\ step nr ns NoFault store_case (OpDelete "a" 9) = (store_case, Err ErrRevisionMatch)
  /\ snd (mod_ nr ns NoFault store_case true "a" [] 0 0)
     = Ok (mkKeyValue 0 "a" [] b2 4 4 5 0 2 1).
Proof. repeat split. Qed.
